(** * Sequence statistics of [5_challenge/find_longest_common_substring.py]

    A shallow embedding of [gc_content], [longest_common_substring] and
    [process_sequences], and the properties of them that the specification
    states.

    Python values are modelled as follows.
    - A [str] is a [list ascii]; a path or a message is a [string].
    - A Python [int] that indexes or counts is a [nat]: the loops run over
      [range(1, m + 1)], so [i - 1] and [j - 1] are never negative.  The one
      subtraction that the loop bounds do not protect, the start of the final
      slice, is done in [Z] with Python's slice rules.
    - A raised exception is the left summand of [result].
    - The dynamic-programming table is a [list (list nat)] read with list
      lookup and written with list insert, each with its bounds check.
    - A [float] is a value of an abstract type: the operations of the Python
      runtime on doubles are parameters of the definitions that use them.
      The module [Double] instantiates them with the IEEE 754 binary64
      operations, each result being the double nearest to the exact one.
    - The file system is a finite map from paths to the decoded text of the
      files that can be read as text.  Which exception a path outside the map
      raises when it is read, and whether a path can be opened for writing,
      is decided by the operating system: both are parameters. *)

From Stdlib Require Import ZArith QArith Qround Qabs Qpower SpecFloat.
From Stdlib Require Import Ascii String.
From stdpp Require Import base tactics option list strings gmap pretty.

(** ** Exceptions and the error monad *)

Inductive exn : Type :=
  | IndexError
  | ZeroDivisionError
  | ValueError (msg : string)
  | FileNotFoundError
  | IsADirectoryError
  | PermissionError
  | UnicodeDecodeError.
Arguments ValueError msg%_string.

Definition result (A : Type) : Type := exn + A.

Definition ret {A} (a : A) : result A := inr a.
Definition raise {A} (e : exn) : result A := inl e.

Definition bind {A B} (c : result A) (k : A → result B) : result B :=
  match c with
  | inl e => inl e
  | inr a => k a
  end.

Declare Scope py_scope.
Delimit Scope py_scope with py.
Notation "'let!' x ':=' c 'in' k" := (bind c (λ x, k))
  (at level 10, x name, c at level 100, k at level 200) : py_scope.
Local Open Scope py_scope.

(** [for x in xs: st = body(st, x)], stopping at the first exception. *)
Fixpoint for_each {S B} (body : S → B → result S) (st : S) (xs : list B)
  : result S :=
  match xs with
  | [] => ret st
  | x :: xs' => let! st' := body st x in for_each body st' xs'
  end.

(** [range(lo, hi)] for natural bounds. *)
Definition range (lo hi : nat) : list nat := seq lo (hi - lo).

(** A [str] literal. *)
Definition text (s : string) : list ascii := list_ascii_of_string s.
Arguments text s%_string.

(** ** Indexing and slicing *)

(** [l[i]] for a non-negative [i]. *)
Definition getitem {A} (l : list A) (i : nat) : result A :=
  match l !! i with
  | Some x => ret x
  | None => raise IndexError
  end.

(** [l[i] = x] for a non-negative [i]. *)
Definition setitem {A} (l : list A) (i : nat) (x : A) : result (list A) :=
  if decide (i < length l) then ret (<[i := x]> l) else raise IndexError.

(** [M[i][j]]. *)
Definition getitem2 {A} (M : list (list A)) (i j : nat) : result A :=
  let! row := getitem M i in getitem row j.

(** [M[i][j] = x]: the row object [M[i]] is updated in place. *)
Definition setitem2 {A} (M : list (list A)) (i j : nat) (x : A)
  : result (list (list A)) :=
  let! row := getitem M i in
  let! row' := setitem row j x in
  setitem M i row'.

(** A slice bound is counted from the end when negative, then clamped. *)
Definition slice_index (len i : Z) : Z :=
  if (i <? 0)%Z then Z.max (i + len) 0 else Z.min i len.

(** [l[start:stop]]. *)
Definition py_slice {A} (l : list A) (start stop : Z) : list A :=
  let len := Z.of_nat (length l) in
  let lo := slice_index len start in
  let hi := slice_index len stop in
  take (Z.to_nat (hi - lo)) (drop (Z.to_nat lo) l).

(** ** [longest_common_substring] *)

Record lcs_state : Type := LcsState {
  matrix : list (list nat);
  longest : nat;
  end_pos : nat
}.

(** [[[0] * (n + 1) for _ in range(m + 1)]]: every row is a fresh list. *)
Definition new_matrix (m n : nat) : list (list nat) :=
  (λ _, replicate (n + 1) 0) <$> range 0 (m + 1).

(** The body of the inner loop, at row [i] and column [j]. *)
Definition lcs_cell (seq1 seq2 : list ascii) (i : nat) (st : lcs_state)
    (j : nat) : result lcs_state :=
  let! a := getitem seq1 (i - 1) in
  let! b := getitem seq2 (j - 1) in
  if decide (a = b) then
    let! d := getitem2 (matrix st) (i - 1) (j - 1) in
    let! M := setitem2 (matrix st) i j (d + 1) in
    let! v := getitem2 M i j in
    if decide (longest st < v) then
      let! v' := getitem2 M i j in
      ret (LcsState M v' i)
    else ret (LcsState M (longest st) (end_pos st))
  else ret st.

(** The body of the outer loop: the inner loop over the columns. *)
Definition lcs_row (seq1 seq2 : list ascii) (st : lcs_state) (i : nat)
  : result lcs_state :=
  for_each (lcs_cell seq1 seq2 i) st (range 1 (length seq2 + 1)).

(** The two nested loops, from the initial table and counters. *)
Definition lcs_table (seq1 seq2 : list ascii) : result lcs_state :=
  let m := length seq1 in
  let n := length seq2 in
  for_each (lcs_row seq1 seq2) (LcsState (new_matrix m n) 0 0)
    (range 1 (m + 1)).

(** The returned slice [seq1[end_pos - longest:end_pos]]. *)
Definition lcs_slice (seq1 : list ascii) (st : lcs_state) : list ascii :=
  py_slice seq1 (Z.of_nat (end_pos st) - Z.of_nat (longest st))
    (Z.of_nat (end_pos st)).

Definition longest_common_substring (seq1 seq2 : list ascii)
  : result (list ascii) :=
  let! st := lcs_table seq1 seq2 in
  ret (lcs_slice seq1 st).

(** ** [gc_content] and [process_sequences]

    The value that [gc_content] returns is an IEEE double.  The float
    operations of the Python runtime that produce and print it are parameters
    of this section; what raises, and in which order the effects happen, is
    modelled in full. *)

(** [str.isspace] of one character, for code points below 256. *)
Definition is_space (c : ascii) : bool :=
  let k := nat_of_ascii c in
  (((9 <=? k) && (k <=? 13)) || ((28 <=? k) && (k <=? 32))
   || (k =? 133) || (k =? 160))%nat.

Definition LF : ascii := ascii_of_nat 10.
Definition CR : ascii := ascii_of_nat 13.

(** Text mode with the default [newline=None]: a carriage return, alone or
    before a line feed, is read as one line feed. *)
Fixpoint universal_newlines (s : list ascii) : list ascii :=
  match s with
  | [] => []
  | c :: s' =>
      if decide (c = CR) then
        LF :: match s' with
              | [] => []
              | c' :: s'' =>
                  if decide (c' = LF) then universal_newlines s''
                  else universal_newlines s'
              end
      else c :: universal_newlines s'
  end.

(** The lines of a text, each with its line feed; [cur] is the line being
    read. *)
Fixpoint split_lines (cur s : list ascii) : list (list ascii) :=
  match s with
  | [] => match cur with [] => [] | _ => [cur] end
  | c :: s' =>
      if decide (c = LF) then (cur ++ [c]) :: split_lines [] s'
      else split_lines (cur ++ [c]) s'
  end.

(** [f.readlines()] on the content of a file opened with mode ["r"]. *)
Definition readlines (content : list ascii) : list (list ascii) :=
  split_lines [] (universal_newlines content).

Fixpoint lstrip (s : list ascii) : list ascii :=
  match s with
  | [] => []
  | c :: s' => if is_space c then lstrip s' else s
  end.

(** [s.strip()] *)
Definition strip (s : list ascii) : list ascii :=
  reverse (lstrip (reverse (lstrip s))).

(** [s.split()]: the maximal runs of characters that are not white space;
    [cur] is the run being read. *)
Fixpoint split_ws (cur s : list ascii) : list (list ascii) :=
  match s with
  | [] => match cur with [] => [] | _ => [cur] end
  | c :: s' =>
      if is_space c then
        match cur with
        | [] => split_ws [] s'
        | _ => cur :: split_ws [] s'
        end
      else split_ws (cur ++ [c]) s'
  end.

Definition split (s : list ascii) : list (list ascii) := split_ws [] s.

(** ["\n".join(parts)] *)
Fixpoint join_lines (parts : list (list ascii)) : list ascii :=
  match parts with
  | [] => []
  | [p] => p
  | p :: ps => p ++ LF :: join_lines ps
  end.

Section SequenceStatistics.
(** The doubles of the Python runtime. *)
Context {float : Type}.
(** The double that [a / b] yields on two [int]s, for [b] other than zero.
    The quotients taken here are at most 1, so the conversion to a double
    does not overflow. *)
Variable int_div : nat → nat → float.
(** [x * k] for a float [x] and an [int] [k]. *)
Variable float_mul : float → nat → float.
(** [round(x, ndigits)], which returns a float and does not raise. *)
Variable float_round : float → nat → float.
(** [str(x)], as an f-string formats a float. *)
Variable float_str : float → list ascii.
(** The exception that [open(path, "r")] or [readlines()] raises for a path
    that holds no readable text: [FileNotFoundError] where nothing exists,
    [IsADirectoryError], [PermissionError], or [UnicodeDecodeError] where
    the bytes of the file do not decode. *)
Variable read_error : string → exn.
(** The exception that [open(path, "w")] raises, if it raises:
    [FileNotFoundError] where the directory is missing, [IsADirectoryError],
    [PermissionError].  When it does not raise, the file is created or
    truncated, and the write that follows is taken to succeed. *)
Variable write_error : string → option exn.

(** [a / b] on two [int]s. *)
Definition truediv (a b : nat) : result float :=
  if decide (b = 0) then raise ZeroDivisionError else ret (int_div a b).

Definition gc_content (sequence : list ascii) : result float :=
  let gc_count :=
    sum_list ((λ _, 1) <$> filter (λ base, base ∈ text "GC") sequence) in
  let! q := truediv gc_count (length sequence) in
  ret (float_round (float_mul q 100) 1).

(** The five result lines of [process_sequences]. *)
Definition report (seq1 seq2 : list ascii) : result (list (list ascii)) :=
  let! gc1 := gc_content seq1 in
  let! gc2 := gc_content seq2 in
  let! common := longest_common_substring seq1 seq2 in
  ret [ text "seq1 length: " ++ text (pretty (length seq1));
        text "seq2 length: " ++ text (pretty (length seq2));
        text "seq1 GC content: " ++ float_str gc1 ++ text "%";
        text "seq2 GC content: " ++ float_str gc2 ++ text "%";
        text "Longest common substring: " ++ common ].

(** The file system: the text of every file that can be read. *)
Local Abbreviation files := (gmap string (list ascii)).

(** [process_sequences(input_file, output_file)] from the file system
    [fs]: the exception raised, if any, and the file system afterwards. *)
Definition process_sequences (input_file output_file : string) (fs : files)
  : result () * files :=
  match fs !! input_file with
  | None => (raise (read_error input_file), fs)
  | Some content =>
      let lines := readlines content in
      if decide (length lines ≠ 2) then
        (raise (ValueError "Input file must contain exactly two lines."), fs)
      else
        let results :=
          let! line1 := getitem lines 0 in
          let! seq1 := getitem (split (strip line1)) 1 in
          let! line2 := getitem lines 1 in
          let! seq2 := getitem (split (strip line2)) 1 in
          report seq1 seq2 in
        match results with
        | inl e => (inl e, fs)
        | inr results =>
            match write_error output_file with
            | Some e => (raise e, fs)
            | None =>
                (ret (), <[output_file := join_lines results ++ [LF]]> fs)
            end
        end
  end.
End SequenceStatistics.
Arguments process_sequences {float} _ _ _ _ _ _
  (input_file output_file)%_string fs.

(** ** Exact arithmetic in place of the doubles

    An instance of the four float parameters over the rationals, to run the
    definitions of the section on examples.  It computes quotients and
    products exactly, so it is a reading of the arithmetic, not the IEEE
    arithmetic of the Python runtime. *)
Module Exact.

Definition div (a b : nat) : Q := Qred (Z.of_nat a # Pos.of_nat b).

Definition mul (x : Q) (k : nat) : Q :=
  Qred (x * inject_Z (Z.of_nat k)).

(** The integer nearest to [y], the even one of the two at a tie. *)
Definition round_half_even (y : Q) : Z :=
  let n := Qnum y in
  let d := Z.pos (Qden y) in
  let up := ((2 * n + d) / (2 * d))%Z in
  if ((2 * n + d) mod (2 * d) =? 0)%Z && Z.odd up then (up - 1)%Z else up.

Definition round (x : Q) (ndigits : nat) : Q :=
  let p := (10 ^ Z.of_nat ndigits)%Z in
  Qred (round_half_even (x * inject_Z p) # Z.to_pos p).

(** One decimal, as Python prints a double that [round(_, 1)] returned. *)
Definition str (x : Q) : list ascii :=
  let tenths := Qfloor (x * 10) in
  text (pretty (tenths / 10)%Z) ++ text "." ++ text (pretty (tenths mod 10)%Z).

Definition run_gc_content : list ascii → result Q :=
  gc_content div mul round.

(** An environment in which a path that holds no readable text is a missing
    file, and every path can be opened for writing. *)
Definition read_error (path : string) : exn := FileNotFoundError.
Definition write_error (path : string) : option exn := None.

Definition run_process_sequences
  : string → string → gmap string (list ascii) →
    result () * gmap string (list ascii) :=
  process_sequences div mul round str read_error write_error.

End Exact.

(** ** The doubles of the Python runtime

    A finite double is modelled by its value, a rational in lowest terms.
    The result of an IEEE 754 binary64 operation is the double nearest to
    the exact result, the one with an even significand at a tie; this is
    [nearest].  [int / int], [float * int] and [round(float, ndigits)] are
    each correctly rounded in CPython, so each is [nearest] of its exact
    result.  Overflow to infinity is left out: the values that [gc_content]
    handles stay between 0 and 100. *)
Module Double.

(** [floor(log2 x)] of a positive fraction [x]. *)
Definition ilog2 (x : Q) : Z :=
  let n := Qnum x in
  let d := Z.pos (Qden x) in
  if (d <=? n)%Z then Z.log2 (n / d)
  else (- Z.log2_up ((d + n - 1) / n))%Z.

(** The integer nearest to [y], the even one of the two at a tie. *)
Definition nearest_integer (y : Q) : Z :=
  let n := Qnum y in
  let d := Z.pos (Qden y) in
  let up := ((2 * n + d) / (2 * d))%Z in
  if ((2 * n + d) mod (2 * d) =? 0)%Z && Z.odd up then (up - 1)%Z else up.

(** The double nearest to [x]: a multiple of [2^e] with a significand of
    53 bits, where [e] is at least the least exponent -1074. *)
Definition nearest (x : Q) : Q :=
  let x := Qred x in
  if Qeq_bool x 0 then 0%Q
  else
    let e := Z.max (ilog2 (Qabs x) - 52) (-1074) in
    Qred (inject_Z (nearest_integer (x * 2 ^ (- e))) * 2 ^ e).

(** [a / b] on two [int]s, for [b] other than zero: the double nearest to
    the quotient. *)
Definition int_div (a b : nat) : Q := nearest (Z.of_nat a # Pos.of_nat b).

(** [x * k]: [k] is converted to a double, then the product is rounded. *)
Definition float_mul (x : Q) (k : nat) : Q :=
  nearest (x * nearest (inject_Z (Z.of_nat k))).

(** [round(x, ndigits)]: the exact value of [x] is rounded to [ndigits]
    decimals, half to even, and the double nearest to that decimal is
    returned. *)
Definition float_round (x : Q) (ndigits : nat) : Q :=
  let p := (10 ^ Z.of_nat ndigits)%Z in
  nearest (nearest_integer (x * inject_Z p) # Z.to_pos p).

(** The value of a finite double of the Standard Library's specification
    of IEEE 754 arithmetic. *)
Definition spec_value (f : spec_float) : Q :=
  match f with
  | S754_finite s m e =>
      Qred ((if s then -1 else 1) * inject_Z (Z.pos m) * 2 ^ e)
  | _ => 0%Q
  end.

(** An integer as an operand of that specification. *)
Definition spec_int (n : nat) : spec_float :=
  match Z.of_nat n with
  | Z.pos p => S754_finite false p 0
  | _ => S754_zero false
  end.

(** [int_div] and [float_mul] give, on [a] and [b], what the binary64
    division and multiplication of the specification give. *)
Definition agrees_with_spec (ab : nat * nat) : bool :=
  let quotient := SFdiv 53 1024 (spec_int ab.1) (spec_int ab.2) in
  Qeq_bool (int_div ab.1 ab.2) (spec_value quotient)
  && Qeq_bool (float_mul (int_div ab.1 ab.2) 100)
       (spec_value
          (SFmul 53 1024 quotient (binary_normalize 53 1024 100 0 false))).

End Double.

(** The number of symbols of a sequence that are [G] or [C]. *)
Definition gc_count (sequence : list ascii) : nat :=
  length (filter (λ base, base ∈ text "GC") sequence).

(** A sequence of 80 symbols of which 23 are [G]: its GC percentage, 28.75,
    lies halfway between two tenths. *)
Definition tie_sequence : list ascii :=
  replicate 23 "G"%char ++ replicate 57 "A"%char.

(** A file of three lines. *)
Definition three_lines : list ascii :=
  text "s1 ACGT" ++ [LF] ++ text "s2 TTGA" ++ [LF] ++ text "s3 GGCC" ++ [LF].

(** ** Specification notions *)

(** [t] occurs in [s] as a contiguous substring. *)
Definition substring_of (t s : list ascii) : Prop :=
  ∃ l1 l2, s = l1 ++ t ++ l2.

(** The [k] symbols of [s] that end at position [e], that is [s[e-k:e]] for
    [k <= e <= len(s)]. *)
Definition segment (s : list ascii) (e k : nat) : list ascii :=
  drop (e - k) (take e s).

(** The table that the loops are meant to build: the length of the longest
    common suffix of [seq1[:i]] and [seq2[:j]]. *)
Fixpoint common_suffix (seq1 seq2 : list ascii) (i j : nat) : nat :=
  match i, j with
  | S i', S j' =>
      match seq1 !! i', seq2 !! j' with
      | Some a, Some b =>
          if decide (a = b) then S (common_suffix seq1 seq2 i' j') else 0
      | _, _ => 0
      end
  | _, _ => 0
  end.

(** No character of [t] is white space. *)
Definition no_space (t : list ascii) : Prop :=
  Forall (λ c, is_space c = false) t.

(** No character of [t] is a line feed or a carriage return. *)
Definition no_line_break (t : list ascii) : Prop :=
  Forall (λ c, c ≠ LF ∧ c ≠ CR) t.



(** An input line of the form [<label> <sequence>], with its line feed. *)
Definition input_line (label w sequence : list ascii) : list ascii :=
  label ++ w ++ sequence ++ [LF].

(** A file of two lines of the form [<label> <sequence>]. *)
Definition two_lines : list ascii :=
  input_line (text "s1") (text " ") (text "ACGTACGT")
  ++ input_line (text "s2") (text "  ") (text "TTACGTGG").

(** A file of two lines, the second without a label. *)
Definition no_label : list ascii :=
  text "s1 ACGTACGT" ++ [LF] ++ text "TTACGTGG" ++ [LF].

(** What [process_sequences] writes for [two_lines], over exact
    arithmetic. *)
Definition two_lines_report : list ascii :=
  text "seq1 length: 8" ++ [LF] ++
  text "seq2 length: 8" ++ [LF] ++
  text "seq1 GC content: 50.0%" ++ [LF] ++
  text "seq2 GC content: 50.0%" ++ [LF] ++
  text "Longest common substring: TACGT" ++ [LF].

(** ** The loop invariant *)

(** Cell [(a, b)] is in column 0 or comes before cell [(i, j)] in the order
    in which the two loops visit the table. *)
Definition before (i j a b : nat) : Prop := b = 0 ∨ a < i ∨ (a = i ∧ b < j).

Section Invariant.
Variables seq1 seq2 : list ascii.
Local Abbreviation cs := (common_suffix seq1 seq2).

(** The table has [len(seq1) + 1] rows of [len(seq2) + 1] entries; a
    visited cell holds its common-suffix length, any other cell is 0. *)
Record table_inv (visited : nat → nat → Prop) (M : list (list nat))
  : Prop := TableInv {
  inv_rows : length M = length seq1 + 1;
  inv_cols : ∀ a row, M !! a = Some row → length row = length seq2 + 1;
  inv_done : ∀ a b row v, M !! a = Some row → row !! b = Some v →
                          visited a b → v = cs a b;
  inv_todo : ∀ a b row v, M !! a = Some row → row !! b = Some v →
                          ¬ visited a b → v = 0
}.

(** [k] bounds every visited cell and is attained in row [e], and in no
    row above [e]. *)
Record best_inv (visited : nat → nat → Prop) (k e : nat) : Prop := BestInv {
  inv_bound : ∀ a b, a ≤ length seq1 → b ≤ length seq2 → visited a b →
                     cs a b ≤ k;
  inv_end : e ≤ length seq1;
  inv_attained : ∃ b, b ≤ length seq2 ∧ cs e b = k;
  inv_first : ∀ a b, a < e → b ≤ length seq2 → cs a b < k
}.

Definition lcs_inv (visited : nat → nat → Prop) (st : lcs_state) : Prop :=
  table_inv visited (matrix st) ∧
  best_inv visited (longest st) (end_pos st).

End Invariant.

(** ** Lists, segments and substrings *)

Lemma segment_length s e k :
  k ≤ e → e ≤ length s → length (segment s e k) = k.
Proof.
  intros Hk He. unfold segment.
  rewrite length_drop, length_take. lia.
Qed.

Lemma segment_0 s e : segment s e 0 = [].
Proof.
  unfold segment. rewrite Nat.sub_0_r.
  apply drop_ge. rewrite length_take. lia.
Qed.

Lemma segment_snoc s e k a :
  s !! e = Some a → k ≤ e → segment s (S e) (S k) = segment s e k ++ [a].
Proof.
  intros Ha Hk. unfold segment.
  rewrite (take_S_r s e a Ha).
  replace (S e - S k) with (e - k) by lia.
  rewrite drop_app_le; [done|].
  rewrite length_take. apply lookup_lt_Some in Ha. lia.
Qed.

Lemma segment_substring s e k : substring_of (segment s e k) s.
Proof.
  exists (take (e - k) (take e s)), (drop e s). unfold segment.
  by rewrite app_assoc, take_drop, take_drop.
Qed.

Lemma substring_segment t s :
  substring_of t s →
  ∃ e, length t ≤ e ∧ e ≤ length s ∧ t = segment s e (length t).
Proof.
  intros (l1 & l2 & ->). exists (length l1 + length t).
  split; [lia|]. split; [rewrite !length_app; lia|].
  unfold segment. rewrite app_assoc.
  rewrite take_app_le by (rewrite length_app; lia).
  rewrite take_ge by (rewrite length_app; lia).
  replace (length l1 + length t - length t) with (length l1) by lia.
  by rewrite drop_app_length.
Qed.

Lemma substring_length t s : substring_of t s → length t ≤ length s.
Proof. intros (l1 & l2 & ->). rewrite !length_app. lia. Qed.

Lemma substring_full t s :
  substring_of t s → length s ≤ length t → t = s.
Proof.
  intros (l1 & l2 & ->). rewrite !length_app. intros Hlen.
  destruct l1; [|simpl in Hlen; lia].
  destruct l2; [|simpl in Hlen; lia].
  by rewrite app_nil_r.
Qed.

Lemma substring_nil t : substring_of t [] → t = [].
Proof.
  intros H. apply substring_full; [done|]. simpl. lia.
Qed.

Lemma substring_refl s : substring_of s s.
Proof. exists [], []. by rewrite app_nil_r. Qed.

(** ** The common-suffix table *)

Lemma common_suffix_0_r seq1 seq2 i : common_suffix seq1 seq2 i 0 = 0.
Proof. by destruct i. Qed.

Lemma common_suffix_eq seq1 seq2 i j a :
  seq1 !! i = Some a → seq2 !! j = Some a →
  common_suffix seq1 seq2 (S i) (S j) = S (common_suffix seq1 seq2 i j).
Proof. intros H1 H2. simpl. rewrite H1, H2. by rewrite decide_True. Qed.

Lemma common_suffix_ne seq1 seq2 i j a b :
  seq1 !! i = Some a → seq2 !! j = Some b → a ≠ b →
  common_suffix seq1 seq2 (S i) (S j) = 0.
Proof. intros H1 H2 Hab. simpl. rewrite H1, H2. by rewrite decide_False. Qed.

(** The entry at [(i, j)] is the length of a segment shared by the two
    sequences, ending at [i] in the first and at [j] in the second. *)
Lemma common_suffix_shared seq1 seq2 i j :
  let k := common_suffix seq1 seq2 i j in
  k ≤ i ∧ k ≤ j ∧ segment seq1 i k = segment seq2 j k.
Proof.
  assert (Hzero : ∀ i j, 0 ≤ i ∧ 0 ≤ j ∧ segment seq1 i 0 = segment seq2 j 0).
  { intros. rewrite !segment_0. split; [lia|]. split; [lia|done]. }
  revert j. induction i as [|i IH]; intros j; simpl; [apply Hzero|].
  destruct j as [|j]; [apply Hzero|].
  destruct (seq1 !! i) as [a|] eqn:Ha, (seq2 !! j) as [b|] eqn:Hb;
    try apply Hzero.
  destruct (decide (a = b)) as [->|Hne]; [|apply Hzero].
  destruct (IH j) as (Hi & Hj & Heq).
  split; [lia|]. split; [lia|].
  rewrite (segment_snoc _ _ _ _ Ha Hi), (segment_snoc _ _ _ _ Hb Hj).
  by rewrite Heq.
Qed.

(** No longer segment is shared at those two end positions. *)
Lemma common_suffix_longest seq1 seq2 i j k :
  k ≤ i → i ≤ length seq1 → k ≤ j → j ≤ length seq2 →
  segment seq1 i k = segment seq2 j k →
  k ≤ common_suffix seq1 seq2 i j.
Proof.
  revert i j. induction k as [|k IH]; intros i j Hki Hi Hkj Hj Heq; [lia|].
  destruct i as [|i]; [lia|]. destruct j as [|j]; [lia|].
  destruct (lookup_lt_is_Some_2 seq1 i) as [a Ha]; [lia|].
  destruct (lookup_lt_is_Some_2 seq2 j) as [b Hb]; [lia|].
  rewrite (segment_snoc _ _ _ _ Ha), (segment_snoc _ _ _ _ Hb) in Heq by lia.
  apply app_inj_tail in Heq as [Heq ->].
  rewrite (common_suffix_eq _ _ _ _ _ Ha Hb).
  apply le_n_S, IH; [lia..|done].
Qed.

(** A common substring is bounded by the entry where its two occurrences
    end. *)
Lemma common_substring_entry seq1 seq2 t :
  substring_of t seq1 → substring_of t seq2 →
  ∃ i j, i ≤ length seq1 ∧ j ≤ length seq2 ∧
         length t ≤ common_suffix seq1 seq2 i j.
Proof.
  intros (i & Hti & Hi & H1)%substring_segment
         (j & Htj & Hj & H2)%substring_segment.
  exists i, j. split; [done|]. split; [done|].
  apply common_suffix_longest; [done..|]. by rewrite <- H1.
Qed.

(** ** Reads and writes that succeed *)

Lemma getitem_Some {A} (l : list A) i x : l !! i = Some x → getitem l i = inr x.
Proof. intros H. unfold getitem. by rewrite H. Qed.

Lemma getitem2_Some {A} (M : list (list A)) i j row x :
  M !! i = Some row → row !! j = Some x → getitem2 M i j = inr x.
Proof.
  intros Hrow Hx. unfold getitem2.
  rewrite (getitem_Some _ _ _ Hrow). simpl. by apply getitem_Some.
Qed.

Lemma setitem2_Some {A} (M : list (list A)) i j row x :
  M !! i = Some row → j < length row →
  setitem2 M i j x = inr (<[i := <[j := x]> row]> M).
Proof.
  intros Hrow Hj. unfold setitem2, setitem.
  rewrite (getitem_Some _ _ _ Hrow). simpl.
  rewrite decide_True by done. simpl.
  rewrite decide_True; [done|]. by eapply lookup_lt_Some.
Qed.

(** A loop over [seq lo len] that keeps an invariant indexed by the loop
    variable runs to its end and establishes the invariant there. *)
Lemma for_each_seq {S} (body : S → nat → result S) (I : nat → S → Prop) :
  ∀ len lo st,
    I lo st →
    (∀ k s, lo ≤ k < lo + len → I k s →
            ∃ s', body s k = inr s' ∧ I (Datatypes.S k) s') →
    ∃ st', for_each body st (seq lo len) = inr st' ∧ I (lo + len) st'.
Proof.
  induction len as [|len IH]; intros lo st Hst Hbody; simpl.
  - exists st. by rewrite Nat.add_0_r.
  - destruct (Hbody lo st) as (s' & -> & Hs'); [lia|done|]. simpl.
    destruct (IH (Datatypes.S lo) s') as (st' & -> & Hst'); [done| |].
    + intros k s Hk. apply Hbody. lia.
    + exists st'. split; [done|]. by rewrite Nat.add_succ_r.
Qed.

(** ** One step of the loops *)

Lemma before_next i j a b :
  before i (S j) a b ↔ before i j a b ∨ (a = i ∧ b = j).
Proof. unfold before. lia. Qed.

Lemma before_next_row i n a b :
  b ≤ n → before (S i) 1 a b ↔ before i (S n) a b.
Proof. unfold before. lia. Qed.

Section Steps.
Variables seq1 seq2 : list ascii.
Local Abbreviation cs := (common_suffix seq1 seq2).

Lemma table_inv_ext P Q M :
  (∀ a b, a ≤ length seq1 → b ≤ length seq2 → P a b ↔ Q a b) →
  table_inv seq1 seq2 P M → table_inv seq1 seq2 Q M.
Proof.
  intros HPQ [Hrows Hcols Hdone Htodo].
  assert (Hab : ∀ a b row (v : nat), M !! a = Some row → row !! b = Some v →
                  a ≤ length seq1 ∧ b ≤ length seq2).
  { intros a b row v Hrow Hv. pose proof (Hcols _ _ Hrow).
    apply lookup_lt_Some in Hrow, Hv. lia. }
  split; [done..| |].
  - intros a b row v Hrow Hv HQ. destruct (Hab _ _ _ _ Hrow Hv).
    apply (Hdone _ _ _ _ Hrow Hv). by apply HPQ.
  - intros a b row v Hrow Hv HQ. destruct (Hab _ _ _ _ Hrow Hv).
    apply (Htodo _ _ _ _ Hrow Hv). by rewrite HPQ.
Qed.

Lemma best_inv_ext P Q k e :
  (∀ a b, a ≤ length seq1 → b ≤ length seq2 → P a b ↔ Q a b) →
  best_inv seq1 seq2 P k e → best_inv seq1 seq2 Q k e.
Proof.
  intros HPQ [Hbound Hend Hatt Hfirst]. split; [|done..].
  intros a b Ha Hb HQ. apply Hbound; [done..|]. by apply HPQ.
Qed.

Lemma lcs_inv_ext P Q st :
  (∀ a b, a ≤ length seq1 → b ≤ length seq2 → P a b ↔ Q a b) →
  lcs_inv seq1 seq2 P st → lcs_inv seq1 seq2 Q st.
Proof.
  intros HPQ [Ht Hb]. split; [by eapply table_inv_ext|by eapply best_inv_ext].
Qed.
(** Writing the common-suffix length into the cell being visited. *)
Lemma table_inv_write i j M row :
  table_inv seq1 seq2 (before i j) M →
  M !! i = Some row →
  table_inv seq1 seq2 (before i (S j)) (<[i := <[j := cs i j]> row]> M).
Proof.
  intros [Hrows Hcols Hdone Htodo] Hrow.
  assert (Hi : i < length M) by by eapply lookup_lt_Some.
  assert (Hlook : ∀ a b row' v,
            <[i := <[j := cs i j]> row]> M !! a = Some row' →
            row' !! b = Some v →
            (a = i ∧ b = j ∧ v = cs i j) ∨
            ((a ≠ i ∨ b ≠ j) ∧ ∃ r, M !! a = Some r ∧ r !! b = Some v)).
  { intros a b row' v Hrow' Hv. destruct (decide (a = i)) as [->|Ha].
    - rewrite list_lookup_insert_eq in Hrow' by done.
      injection Hrow' as <-. destruct (decide (b = j)) as [->|Hb].
      + left. apply lookup_lt_Some in Hv as Hlt. rewrite length_insert in Hlt.
        rewrite list_lookup_insert_eq in Hv by done. by injection Hv as <-.
      + right. rewrite list_lookup_insert_ne in Hv by done. eauto.
    - right. rewrite list_lookup_insert_ne in Hrow' by done. eauto. }
  split.
  - by rewrite length_insert.
  - intros a row' Hrow'. destruct (decide (a = i)) as [->|Ha].
    + rewrite list_lookup_insert_eq in Hrow' by done.
      injection Hrow' as <-. rewrite length_insert. by eapply Hcols.
    + rewrite list_lookup_insert_ne in Hrow' by done. by eapply Hcols.
  - intros a b row' v Hrow' Hv Hvis.
    destruct (Hlook _ _ _ _ Hrow' Hv) as [(-> & -> & ->)|(Hne & r & Hr & Hrv)];
      [done|].
    apply (Hdone _ _ _ _ Hr Hrv).
    apply before_next in Hvis as [Hvis|[-> ->]]; [done|lia].
  - intros a b row' v Hrow' Hv Hvis.
    destruct (Hlook _ _ _ _ Hrow' Hv) as [(-> & -> & ->)|(Hne & r & Hr & Hrv)].
    + exfalso. apply Hvis, before_next. lia.
    + apply (Htodo _ _ _ _ Hr Hrv). intros Hb. apply Hvis, before_next. by left.
Qed.

(** Leaving the cell being visited untouched, when its length is 0. *)
Lemma table_inv_skip i j M :
  table_inv seq1 seq2 (before i j) M →
  cs i j = 0 →
  table_inv seq1 seq2 (before i (S j)) M.
Proof.
  intros [Hrows Hcols Hdone Htodo] Hzero. split; [done..| |].
  - intros a b row v Hrow Hv [Hvis|[-> ->]]%before_next.
    + by eapply Hdone.
    + rewrite Hzero. destruct (decide (j = 0)) as [->|Hj].
      * rewrite <- Hzero. eapply Hdone; [done..|]. by left.
      * eapply Htodo; [done..|]. unfold before. lia.
  - intros a b row v Hrow Hv Hvis. eapply Htodo; [done..|].
    intros Hb. apply Hvis, before_next. by left.
Qed.

(** A strictly longer cell becomes the recorded maximum, at its row. *)
Lemma best_inv_improve i j k e :
  best_inv seq1 seq2 (before i j) k e →
  i ≤ length seq1 → j ≤ length seq2 → k < cs i j →
  best_inv seq1 seq2 (before i (S j)) (cs i j) i.
Proof.
  intros [Hbound Hend Hatt Hfirst] Hi Hj Hlt. split.
  - intros a b Ha Hb [Hvis|[-> ->]]%before_next; [|done].
    specialize (Hbound a b Ha Hb Hvis). lia.
  - done.
  - eauto.
  - intros a b Ha Hb.
    assert (cs a b ≤ k); [|lia].
    apply Hbound; [lia|done|]. unfold before. lia.
Qed.

(** Any other cell leaves the recorded maximum and its row as they are. *)
Lemma best_inv_keep i j k e :
  best_inv seq1 seq2 (before i j) k e →
  cs i j ≤ k →
  best_inv seq1 seq2 (before i (S j)) k e.
Proof.
  intros [Hbound Hend Hatt Hfirst] Hle. split; [|done..].
  intros a b Ha Hb [Hvis|[-> ->]]%before_next; [|done]. by apply Hbound.
Qed.

(** One run of the inner loop's body. *)
Lemma lcs_cell_inv i j st :
  1 ≤ i ≤ length seq1 → 1 ≤ j ≤ length seq2 →
  lcs_inv seq1 seq2 (before i j) st →
  ∃ st', lcs_cell seq1 seq2 i st j = inr st' ∧
         lcs_inv seq1 seq2 (before i (S j)) st'.
Proof.
  intros Hi Hj [Htab Hbest].
  destruct i as [|i]; [lia|]. destruct j as [|j]; [lia|].
  destruct (lookup_lt_is_Some_2 seq1 i) as [a Ha]; [lia|].
  destruct (lookup_lt_is_Some_2 seq2 j) as [b Hb]; [lia|].
  unfold lcs_cell. replace (S i - 1) with i by lia.
  replace (S j - 1) with j by lia.
  rewrite (getitem_Some _ _ _ Ha), (getitem_Some _ _ _ Hb). simpl.
  destruct (decide (a = b)) as [->|Hne].
  2:{ exists st. split; [done|].
      pose proof (common_suffix_ne _ _ _ _ _ _ Ha Hb Hne) as Hzero.
      split; [by apply table_inv_skip|]. apply best_inv_keep; [done|lia]. }
  pose proof (common_suffix_eq _ _ _ _ _ Ha Hb) as Hcs.
  pose proof Htab as [Hrows Hcols Hdone Htodo].
  destruct (lookup_lt_is_Some_2 (matrix st) i) as [prev Hprev]; [lia|].
  destruct (lookup_lt_is_Some_2 (matrix st) (S i)) as [row Hrow]; [lia|].
  pose proof (Hcols _ _ Hprev) as Hprevlen.
  pose proof (Hcols _ _ Hrow) as Hrowlen.
  destruct (lookup_lt_is_Some_2 prev j) as [d Hd]; [lia|].
  assert (d = cs i j) as ->.
  { eapply Hdone; [done..|]. unfold before. lia. }
  rewrite (getitem2_Some _ _ _ _ _ Hprev Hd). simpl.
  rewrite (setitem2_Some _ _ _ _ _ Hrow) by lia. simpl.
  replace (cs i j + 1) with (cs (S i) (S j)) by lia.
  assert (HM : table_inv seq1 seq2 (before (S i) (S (S j)))
                 (<[S i := <[S j := cs (S i) (S j)]> row]> (matrix st)))
    by by apply table_inv_write.
  assert (Hread : getitem2 (<[S i := <[S j := cs (S i) (S j)]> row]> (matrix st))
                    (S i) (S j) = inr (cs (S i) (S j))).
  { eapply getitem2_Some.
    - apply list_lookup_insert_eq. lia.
    - apply list_lookup_insert_eq. lia. }
  revert HM Hread.
  generalize (<[S i := <[S j := cs (S i) (S j)]> row]> (matrix st)).
  intros M HM Hread. rewrite Hread. cbn [bind].
  destruct (decide (longest st < cs (S i) (S j))) as [Hlt|Hge].
  - eexists. split; [reflexivity|]. split; [done|]. simpl.
    eapply best_inv_improve; [done|lia..].
  - eexists. split; [reflexivity|]. split; [done|]. simpl.
    apply best_inv_keep; [done|lia].
Qed.
End Steps.

(** ** The loops *)

(** The inner loop visits the rest of row [i]. *)
Lemma lcs_row_inv seq1 seq2 i st :
  1 ≤ i ≤ length seq1 →
  lcs_inv seq1 seq2 (before i 1) st →
  ∃ st', lcs_row seq1 seq2 st i = inr st' ∧
         lcs_inv seq1 seq2 (before (S i) 1) st'.
Proof.
  intros Hi Hst. unfold lcs_row, range.
  destruct (for_each_seq (lcs_cell seq1 seq2 i)
              (λ j, lcs_inv seq1 seq2 (before i j))
              (length seq2 + 1 - 1) 1 st Hst) as (st' & Hrun & Hst').
  { intros j s Hj Hs. apply lcs_cell_inv; [done|lia|done]. }
  exists st'. split; [done|].
  eapply lcs_inv_ext; [|exact Hst']. intros a b _ Hb.
  rewrite (before_next_row i (length seq2)) by done.
  by replace (1 + (length seq2 + 1 - 1)) with (S (length seq2)) by lia.
Qed.

Lemma new_matrix_lookup m n a row :
  new_matrix m n !! a = Some row → row = replicate (n + 1) 0.
Proof.
  unfold new_matrix. rewrite list_lookup_fmap.
  destruct (range 0 (m + 1) !! a); simpl; congruence.
Qed.

(** The fresh table and the initial counters satisfy the invariant. *)
Lemma lcs_inv_init seq1 seq2 :
  lcs_inv seq1 seq2 (before 1 1)
    (LcsState (new_matrix (length seq1) (length seq2)) 0 0).
Proof.
  assert (Hzero : ∀ a b, before 1 1 a b → common_suffix seq1 seq2 a b = 0).
  { intros a b [->|[Ha|[_ Hb]]].
    - apply common_suffix_0_r.
    - by replace a with 0 by lia.
    - replace b with 0 by lia. apply common_suffix_0_r. }
  split; simpl.
  - split.
    + unfold new_matrix, range. rewrite length_fmap, length_seq. lia.
    + intros a row ->%new_matrix_lookup. by rewrite length_replicate.
    + intros a b row v ->%new_matrix_lookup [-> _]%lookup_replicate Hvis.
      by rewrite Hzero.
    + by intros a b row v ->%new_matrix_lookup [-> _]%lookup_replicate _.
  - split.
    + intros a b _ _ Hvis. by rewrite Hzero.
    + lia.
    + exists 0. split; [lia|done].
    + intros a b Ha. lia.
Qed.

(** The two loops run to their end without raising, and every cell has then
    been visited. *)
Lemma lcs_table_inv seq1 seq2 :
  ∃ st, lcs_table seq1 seq2 = inr st ∧
        lcs_inv seq1 seq2 (λ _ _, True) st.
Proof.
  unfold lcs_table, range.
  destruct (for_each_seq (lcs_row seq1 seq2)
              (λ i, lcs_inv seq1 seq2 (before i 1))
              (length seq1 + 1 - 1) 1 _ (lcs_inv_init seq1 seq2))
    as (st & Hrun & Hst).
  { intros i s Hi Hs. apply lcs_row_inv; [lia|done]. }
  exists st. split; [done|].
  eapply lcs_inv_ext; [|exact Hst]. intros a b Ha Hb. unfold before.
  split; [done|intros _; lia].
Qed.

(** ** The returned slice *)

Lemma py_slice_segment (s : list ascii) e k :
  k ≤ e → e ≤ length s →
  py_slice s (Z.of_nat e - Z.of_nat k) (Z.of_nat e) = segment s e k.
Proof.
  intros Hk He. unfold py_slice, slice_index, segment.
  destruct (Z.ltb_spec (Z.of_nat e - Z.of_nat k) 0) as [?|_]; [lia|].
  destruct (Z.ltb_spec (Z.of_nat e) 0) as [?|_]; [lia|].
  rewrite !Z.min_l by lia.
  replace (Z.to_nat (Z.of_nat e - (Z.of_nat e - Z.of_nat k))) with k by lia.
  replace (Z.to_nat (Z.of_nat e - Z.of_nat k)) with (e - k) by lia.
  rewrite take_drop_commute.
  by replace (e - k + k) with e by lia.
Qed.

Lemma py_slice_empty {A} (s : list A) (e : Z) : py_slice s e e = [].
Proof. unfold py_slice. by rewrite Z.sub_diag. Qed.

(** ** What [longest_common_substring] returns

    The call returns the segment of [seq1] of length [k] that ends at [e],
    where [k] is the greatest length of a common substring and [e] the first
    position of [seq1] at which a common substring of that length ends. *)
Lemma lcs_returns seq1 seq2 :
  ∃ e k,
    longest_common_substring seq1 seq2 = inr (segment seq1 e k) ∧
    k ≤ e ∧ e ≤ length seq1 ∧
    substring_of (segment seq1 e k) seq2 ∧
    (∀ t, substring_of t seq1 → substring_of t seq2 → length t ≤ k) ∧
    (∀ e', k ≤ e' → e' < e → ¬ substring_of (segment seq1 e' k) seq2).
Proof.
  destruct (lcs_table_inv seq1 seq2) as (st & Hrun & _ & Hbest).
  destruct Hbest as [Hbound Hend (b & Hb & Hatt) Hfirst].
  destruct (common_suffix_shared seq1 seq2 (end_pos st) b) as (Hke & Hkb & Heq).
  rewrite Hatt in Hke, Hkb, Heq.
  exists (end_pos st), (longest st).
  split; [|split; [done|split; [done|split; [|split]]]].
  - unfold longest_common_substring. rewrite Hrun. simpl.
    unfold lcs_slice. by rewrite py_slice_segment.
  - rewrite Heq. apply segment_substring.
  - intros t H1 H2.
    destruct (common_substring_entry _ _ _ H1 H2) as (i & j & Hi & Hj & Hle).
    specialize (Hbound i j Hi Hj I). lia.
  - intros e' Hke' He' Hsub.
    assert (He'len : e' ≤ length seq1) by lia.
    pose proof (segment_length seq1 e' (longest st) Hke' He'len) as Hlen.
    apply substring_segment in Hsub as (j & Hkj & Hj & Hseg).
    rewrite Hlen in Hkj, Hseg.
    pose proof (common_suffix_longest seq1 seq2 e' j (longest st)
                  Hke' He'len Hkj Hj Hseg) as Hle.
    specialize (Hfirst e' j He' Hj). lia.
Qed.

(** A run of the inner loop's body replaces the recorded maximum and its row
    only by a strictly greater value, found in the row being visited. *)
Lemma lcs_cell_strict seq1 seq2 i j st st' :
  lcs_cell seq1 seq2 i st j = inr st' →
  (longest st' = longest st ∧ end_pos st' = end_pos st) ∨
  (longest st < longest st' ∧ end_pos st' = i).
Proof.
  unfold lcs_cell.
  destruct (getitem seq1 (i - 1)) as [|a]; simpl; [done|].
  destruct (getitem seq2 (j - 1)) as [|b]; simpl; [done|].
  destruct (decide (a = b)) as [_|_]; [|intros [= <-]; by left].
  destruct (getitem2 (matrix st) (i - 1) (j - 1)) as [|d]; simpl; [done|].
  destruct (setitem2 (matrix st) i j (d + 1)) as [|M]; simpl; [done|].
  destruct (getitem2 M i j) as [|v]; simpl; [done|].
  destruct (decide (longest st < v)) as [Hlt|_]; simpl.
  - intros [= <-]. by right.
  - intros [= <-]. by left.
Qed.

(** ** The properties of the specification *)

(** C1: the string that [longest_common_substring] returns occurs as a
    contiguous substring of both sequences (also when it is empty), and no
    contiguous substring common to both is strictly longer. *)
Theorem lcs_common_and_longest seq1 seq2 :
  ∃ r, longest_common_substring seq1 seq2 = inr r ∧
       substring_of r seq1 ∧ substring_of r seq2 ∧
       ∀ t, substring_of t seq1 → substring_of t seq2 → length t ≤ length r.
Proof.
  destruct (lcs_returns seq1 seq2) as (e & k & Hrun & Hk & He & H2 & Hmax & _).
  exists (segment seq1 e k). split; [done|].
  split; [apply segment_substring|]. split; [done|].
  rewrite segment_length by done. exact Hmax.
Qed.

(** C2, as the code has it: for ["ACGTACGT"] and ["TTACGTGG"] the call
    returns ["TACGT"], the common substring of length 5. *)
Theorem lcs_example_TACGT :
  longest_common_substring (text "ACGTACGT") (text "TTACGTGG")
  = inr (text "TACGT").
Proof. vm_compute. reflexivity. Qed.

(** C2, as the specification has it, fails: the call does not return
    ["ACGT"]. *)
Lemma lcs_example_not_ACGT :
  longest_common_substring (text "ACGTACGT") (text "TTACGTGG")
  ≠ inr (text "ACGT").
Proof. vm_compute. discriminate. Qed.

(** C3, as the code has it: in the two argument orders the returned strings
    have the same length, and each occurs in both sequences. *)
Theorem lcs_swap_same_length s1 s2 :
  ∃ r1 r2,
    longest_common_substring s1 s2 = inr r1 ∧
    longest_common_substring s2 s1 = inr r2 ∧
    length r1 = length r2 ∧
    substring_of r1 s1 ∧ substring_of r1 s2 ∧
    substring_of r2 s1 ∧ substring_of r2 s2.
Proof.
  destruct (lcs_returns s1 s2) as (e1 & k1 & Hrun1 & Hk1 & He1 & Hsub1 & Hmax1 & _).
  destruct (lcs_returns s2 s1) as (e2 & k2 & Hrun2 & Hk2 & He2 & Hsub2 & Hmax2 & _).
  exists (segment s1 e1 k1), (segment s2 e2 k2).
  pose proof (segment_substring s1 e1 k1) as Hin1.
  pose proof (segment_substring s2 e2 k2) as Hin2.
  split; [done|]. split; [done|]. split; [|done].
  pose proof (Hmax1 _ Hsub2 Hin2) as H21.
  pose proof (Hmax2 _ Hsub1 Hin1) as H12.
  rewrite (segment_length s1 e1 k1 Hk1 He1) in *.
  rewrite (segment_length s2 e2 k2 Hk2 He2) in *. lia.
Qed.

(** C3, as the specification has it, fails: for ["AB"] and ["BA"] the
    returned string depends on the argument order. *)
Lemma lcs_swap_differs :
  longest_common_substring (text "AB") (text "BA")
  ≠ longest_common_substring (text "BA") (text "AB").
Proof. vm_compute. discriminate. Qed.

(** C4: the call returns the [k] symbols of [seq1] that end at [e], where
    [k] is the greatest length of a common substring and no common substring
    of that length ends in [seq1] before [e]; and the loop body replaces the
    recorded maximum on a strict increase only. *)
Theorem lcs_first_maximum_wins seq1 seq2 :
  (∃ e k,
     longest_common_substring seq1 seq2 = inr (segment seq1 e k) ∧
     k ≤ e ∧ e ≤ length seq1 ∧
     substring_of (segment seq1 e k) seq2 ∧
     (∀ t, substring_of t seq1 → substring_of t seq2 → length t ≤ k) ∧
     (∀ e', k ≤ e' → e' ≤ length seq1 →
            substring_of (segment seq1 e' k) seq2 → e ≤ e')) ∧
  (∀ i j st st',
     lcs_cell seq1 seq2 i st j = inr st' →
     (longest st' = longest st ∧ end_pos st' = end_pos st) ∨
     (longest st < longest st' ∧ end_pos st' = i)).
Proof.
  split; [|apply lcs_cell_strict].
  destruct (lcs_returns seq1 seq2)
    as (e & k & Hrun & Hk & He & Hsub & Hmax & Hfirst).
  exists e, k. repeat (split; [done|]).
  intros e' Hk' He' Hsub'. destruct (decide (e ≤ e')) as [|Hlt]; [done|].
  destruct (Hfirst e' Hk'); [lia|done].
Qed.

(** C8: a sequence is its own longest common substring with itself. *)
Theorem lcs_self s : longest_common_substring s s = inr s.
Proof.
  destruct (lcs_returns s s) as (e & k & Hrun & Hk & He & _ & Hmax & _).
  rewrite Hrun. f_equal. apply substring_full; [apply segment_substring|].
  rewrite segment_length by done.
  apply Hmax; apply substring_refl.
Qed.

(** C9: against the empty sequence the call returns the empty string, and
    so it does whenever the maximum recorded by the loops is 0. *)
Theorem lcs_empty_right :
  (∀ s, longest_common_substring s [] = inr []) ∧
  (∀ seq1 seq2 st,
     lcs_table seq1 seq2 = inr st → longest st = 0 →
     longest_common_substring seq1 seq2 = inr []).
Proof.
  split.
  - intros s.
    destruct (lcs_returns s []) as (e & k & Hrun & _ & _ & Hsub & _).
    rewrite Hrun. f_equal. by apply substring_nil.
  - intros seq1 seq2 st Hrun Hzero. unfold longest_common_substring.
    rewrite Hrun. simpl. unfold lcs_slice. rewrite Hzero. simpl.
    by rewrite Z.sub_0_r, py_slice_empty.
Qed.

(** C10: with an empty first sequence the outer loop has nothing to run
    over, the counters stay 0, and the call returns the empty string. *)
Theorem lcs_empty_left s :
  lcs_table [] s = inr (LcsState (new_matrix 0 (length s)) 0 0) ∧
  longest_common_substring [] s = inr [].
Proof. split; reflexivity. Qed.

(** The spec's last example, over exact arithmetic: ["GGGG"] and ["CCCC"]
    share no symbol and each has GC content 100. *)
Example lcs_no_common_symbol :
  longest_common_substring (text "GGGG") (text "CCCC") = inr [] ∧
  Exact.run_gc_content (text "GGGG") = inr 100%Q ∧
  Exact.run_gc_content (text "CCCC") = inr 100%Q.
Proof. by vm_compute. Qed.

Section SequenceStatisticsFacts.
Context {float : Type}.
Variable int_div : nat → nat → float.
Variable float_mul : float → nat → float.
Variable float_round : float → nat → float.
Variable float_str : float → list ascii.
Variable read_error : string → exn.
Variable write_error : string → option exn.

(** C6: [gc_content] raises [ZeroDivisionError] exactly on the empty
    sequence, and returns a value on every other sequence. *)
Theorem gc_content_raises_iff_empty (sequence : list ascii) :
  (gc_content int_div float_mul float_round sequence = inl ZeroDivisionError
   ↔ sequence = []) ∧
  (sequence ≠ [] →
   ∃ v, gc_content int_div float_mul float_round sequence = inr v).
Proof.
  unfold gc_content, truediv.
  destruct sequence as [|base sequence]; simpl length.
  - rewrite decide_True by done. simpl. done.
  - rewrite decide_False by done. simpl. split; [|by eauto].
    split; discriminate.
Qed.

(** C7: when the input file has a number of lines other than two,
    [process_sequences] raises the [ValueError] of the line-count check and
    leaves the file system as it was, so nothing is written to the output
    path. *)
Theorem process_sequences_line_count
    (input_file output_file : string) (fs : gmap string (list ascii))
    (content : list ascii) :
  fs !! input_file = Some content →
  length (readlines content) ≠ 2 →
  process_sequences int_div float_mul float_round float_str
    read_error write_error input_file output_file fs
  = (inl (ValueError "Input file must contain exactly two lines."), fs).
Proof.
  intros Hfile Hlines. unfold process_sequences.
  rewrite Hfile. by rewrite decide_True.
Qed.
End SequenceStatisticsFacts.

(** C6 at the sequence ["GC"], over exact arithmetic. *)
Lemma gc_content_raises_iff_empty_witness :
  text "GC" ≠ [] ∧ ∃ v, Exact.run_gc_content (text "GC") = inr v.
Proof.
  split; [discriminate|].
  apply (gc_content_raises_iff_empty
           Exact.div Exact.mul Exact.round (text "GC")).
  discriminate.
Defined.

(** C7 at a file system whose input file has three lines. *)
Lemma process_sequences_line_count_witness :
  ({[ "in.txt"%string := three_lines ]} : gmap string (list ascii))
    !! "in.txt"%string = Some three_lines ∧
  length (readlines three_lines) ≠ 2 ∧
  Exact.run_process_sequences "in.txt" "out.txt"
    {[ "in.txt"%string := three_lines ]}
  = (inl (ValueError "Input file must contain exactly two lines."),
     {[ "in.txt"%string := three_lines ]}).
Proof.
  assert (Hfile : ({[ "in.txt"%string := three_lines ]}
                     : gmap string (list ascii))
                    !! "in.txt"%string = Some three_lines)
    by apply lookup_singleton_eq.
  assert (Hlines : length (readlines three_lines) ≠ 2)
    by (vm_compute; discriminate).
  split; [exact Hfile|]. split; [exact Hlines|].
  exact (process_sequences_line_count
           Exact.div Exact.mul Exact.round Exact.str
           Exact.read_error Exact.write_error
           "in.txt" "out.txt" _ three_lines Hfile Hlines).
Defined.

(** C4 at the second row of ["AB"] against ["BA"]: the match of length 1
    found there does not replace the one recorded in the first row. *)
Lemma lcs_first_maximum_wins_witness :
  lcs_cell (text "AB") (text "BA") 2
    (LcsState [[0; 0; 0]; [0; 0; 1]; [0; 0; 0]] 1 1) 1
  = inr (LcsState [[0; 0; 0]; [0; 0; 1]; [0; 1; 0]] 1 1) ∧
  ((longest (LcsState [[0; 0; 0]; [0; 0; 1]; [0; 1; 0]] 1 1) = 1 ∧
    end_pos (LcsState [[0; 0; 0]; [0; 0; 1]; [0; 1; 0]] 1 1) = 1) ∨
   (1 < longest (LcsState [[0; 0; 0]; [0; 0; 1]; [0; 1; 0]] 1 1) ∧
    end_pos (LcsState [[0; 0; 0]; [0; 0; 1]; [0; 1; 0]] 1 1) = 2)).
Proof.
  assert (Hrun : lcs_cell (text "AB") (text "BA") 2
                   (LcsState [[0; 0; 0]; [0; 0; 1]; [0; 0; 0]] 1 1) 1
                 = inr (LcsState [[0; 0; 0]; [0; 0; 1]; [0; 1; 0]] 1 1))
    by reflexivity.
  split; [exact Hrun|].
  exact (proj2 (lcs_first_maximum_wins (text "AB") (text "BA")) _ _ _ _ Hrun).
Defined.

(** C9 at ["GGGG"] and ["CCCC"], where the loops record no match. *)
Lemma lcs_empty_right_witness :
  lcs_table (text "GGGG") (text "CCCC")
  = inr (LcsState (new_matrix 4 4) 0 0) ∧
  longest_common_substring (text "GGGG") (text "CCCC") = inr [].
Proof.
  assert (Hrun : lcs_table (text "GGGG") (text "CCCC")
                 = inr (LcsState (new_matrix 4 4) 0 0)) by reflexivity.
  split; [exact Hrun|].
  exact (proj2 lcs_empty_right _ _ _ Hrun eq_refl).
Defined.

(** ** Further properties of [longest_common_substring] *)

Lemma substring_trans t s u :
  substring_of t s → substring_of s u → substring_of t u.
Proof.
  intros (a & b & ->) (c & d & ->). exists (c ++ a), (b ++ d).
  by rewrite <- !app_assoc.
Qed.

Lemma substring_elem c t s : substring_of t s → c ∈ t → c ∈ s.
Proof.
  intros (a & b & ->) Hc. rewrite !elem_of_app. auto.
Qed.

Lemma elem_substring c s : c ∈ s → substring_of [c] s.
Proof.
  intros (a & b & ->)%list_elem_of_split. by exists a, b.
Qed.

(** X1: the call returns the empty string exactly when the two sequences
    have no symbol in common. *)
Theorem lcs_empty_iff_disjoint seq1 seq2 :
  longest_common_substring seq1 seq2 = inr [] ↔
  ∀ c, c ∈ seq1 → c ∉ seq2.
Proof.
  destruct (lcs_returns seq1 seq2)
    as (e & k & Hrun & Hk & He & Hsub & Hmax & _).
  pose proof (segment_substring seq1 e k) as Hsub1.
  pose proof (segment_length seq1 e k Hk He) as Hlen.
  rewrite Hrun. split.
  - intros [= Hnil] c H1 H2. rewrite Hnil in Hlen. simpl in Hlen.
    pose proof (Hmax [c] (elem_substring _ _ H1) (elem_substring _ _ H2)) as Hc.
    simpl in Hc. lia.
  - intros Hdisj. f_equal.
    destruct (segment seq1 e k) as [|c t]; [done|].
    destruct (Hdisj c).
    + eapply substring_elem; [exact Hsub1|]. by left.
    + eapply substring_elem; [exact Hsub|]. by left.
Qed.

(** X2: the call returns its first argument exactly when the first argument
    occurs in the second, and its second argument exactly when the second
    occurs in the first. *)
Theorem lcs_contained seq1 seq2 :
  (longest_common_substring seq1 seq2 = inr seq1 ↔ substring_of seq1 seq2) ∧
  (longest_common_substring seq1 seq2 = inr seq2 ↔ substring_of seq2 seq1).
Proof.
  destruct (lcs_returns seq1 seq2)
    as (e & k & Hrun & Hk & He & Hsub & Hmax & _).
  pose proof (segment_substring seq1 e k) as Hsub1.
  pose proof (segment_length seq1 e k Hk He) as Hlen.
  rewrite Hrun. split; split.
  - intros [= Heq]. by rewrite Heq in Hsub.
  - intros H12. f_equal. apply substring_full; [done|].
    rewrite Hlen. apply Hmax; [apply substring_refl|done].
  - intros [= Heq]. by rewrite Heq in Hsub1.
  - intros H21. f_equal. apply substring_full; [done|].
    rewrite Hlen. apply Hmax; [done|apply substring_refl].
Qed.

(** X3: extending either sequence, at either end, never shortens the
    returned string. *)
Theorem lcs_length_monotone seq1 seq2 seq1' seq2' r r' :
  substring_of seq1 seq1' → substring_of seq2 seq2' →
  longest_common_substring seq1 seq2 = inr r →
  longest_common_substring seq1' seq2' = inr r' →
  length r ≤ length r'.
Proof.
  intros H1 H2 Hr Hr'.
  destruct (lcs_returns seq1 seq2)
    as (e & k & Hrun & Hk & He & Hsub & _).
  destruct (lcs_returns seq1' seq2')
    as (e' & k' & Hrun' & Hk' & He' & _ & Hmax' & _).
  rewrite Hrun in Hr. injection Hr as <-.
  rewrite Hrun' in Hr'. injection Hr' as <-.
  rewrite (segment_length seq1' e' k') by done.
  apply Hmax'.
  - eapply substring_trans; [apply segment_substring|done].
  - by eapply substring_trans.
Qed.

(** X4: the loops end with a table of [len(seq1) + 1] rows that holds, at
    every cell, the length of the longest common suffix of the two prefixes;
    [longest] is the greatest entry and [end_pos] the first row that holds
    it, and [longest] is at most [end_pos], so that the start of the final
    slice is not negative. *)
Theorem lcs_table_final seq1 seq2 :
  ∃ st,
    lcs_table seq1 seq2 = inr st ∧
    length (matrix st) = length seq1 + 1 ∧
    (∀ i j, i ≤ length seq1 → j ≤ length seq2 →
            getitem2 (matrix st) i j = inr (common_suffix seq1 seq2 i j)) ∧
    (∀ i j, i ≤ length seq1 → j ≤ length seq2 →
            common_suffix seq1 seq2 i j ≤ longest st) ∧
    longest st ≤ end_pos st ∧ end_pos st ≤ length seq1 ∧
    (∃ j, j ≤ length seq2 ∧
          common_suffix seq1 seq2 (end_pos st) j = longest st) ∧
    (∀ i j, i < end_pos st → j ≤ length seq2 →
            common_suffix seq1 seq2 i j < longest st).
Proof.
  destruct (lcs_table_inv seq1 seq2) as (st & Hrun & Htab & Hbest).
  destruct Htab as [Hrows Hcols Hdone _].
  destruct Hbest as [Hbound Hend Hatt Hfirst].
  assert (Hle : longest st ≤ end_pos st).
  { destruct Hatt as (j & _ & <-).
    apply (common_suffix_shared seq1 seq2 (end_pos st) j). }
  exists st. split; [done|]. split; [done|].
  split; [|split; [|done]].
  - intros i j Hi Hj.
    destruct (lookup_lt_is_Some_2 (matrix st) i) as [row Hrow]; [lia|].
    pose proof (Hcols _ _ Hrow) as Hlen.
    destruct (lookup_lt_is_Some_2 row j) as [v Hv]; [lia|].
    rewrite (getitem2_Some _ _ _ _ _ Hrow Hv). f_equal.
    by eapply Hdone.
  - intros i j Hi Hj. by apply Hbound.
Qed.

(** X3 at ["ACG"], ["CGA"] extended to ["TACGT"], ["ACGA"]. *)
Lemma lcs_length_monotone_witness :
  substring_of (text "ACG") (text "TACGT") ∧
  substring_of (text "CGA") (text "ACGA") ∧
  longest_common_substring (text "ACG") (text "CGA") = inr (text "CG") ∧
  longest_common_substring (text "TACGT") (text "ACGA") = inr (text "ACG") ∧
  length (text "CG") ≤ length (text "ACG").
Proof.
  assert (H1 : substring_of (text "ACG") (text "TACGT"))
    by (by exists (text "T"), (text "T")).
  assert (H2 : substring_of (text "CGA") (text "ACGA"))
    by (by exists (text "A"), []).
  assert (Hr : longest_common_substring (text "ACG") (text "CGA")
               = inr (text "CG")) by reflexivity.
  assert (Hr' : longest_common_substring (text "TACGT") (text "ACGA")
                = inr (text "ACG")) by reflexivity.
  repeat (split; [assumption|]).
  exact (lcs_length_monotone _ _ _ _ _ _ H1 H2 Hr Hr').
Defined.

(** ** Reading the input file *)

Lemma no_space_no_line_break t : no_space t → no_line_break t.
Proof.
  intros Ht. eapply Forall_impl; [exact Ht|].
  intros c Hc. split; intros ->; by vm_compute in Hc.
Qed.

(** Every token of [s.split()] is non-empty and free of white space. *)
Lemma split_ws_tokens s : ∀ cur t,
  no_space cur → t ∈ split_ws cur s → t ≠ [] ∧ no_space t.
Proof.
  induction s as [|c s IH]; intros cur t Hcur; simpl.
  - destruct cur; [by intros ?%elem_of_nil|].
    by intros ->%list_elem_of_singleton.
  - destruct (is_space c) eqn:Hc.
    + destruct cur as [|c' cur]; [apply IH; constructor|].
      intros [->|Ht]%elem_of_cons; [done|].
      eapply IH; [constructor|done].
    + apply IH. apply Forall_app. split; [done|]. by apply Forall_singleton.
Qed.

Lemma split_tokens s t : t ∈ split s → t ≠ [] ∧ no_space t.
Proof. apply split_ws_tokens. constructor. Qed.

(** White space at either end of a string does not change its tokens. *)
Lemma split_ws_app_space cur s w :
  Forall (λ c, is_space c = true) w →
  split_ws cur (s ++ w) = split_ws cur s.
Proof.
  intros Hw. revert cur. induction s as [|c s IH]; intros cur; simpl.
  - revert cur. induction Hw as [|c w Hc _ IHw]; intros cur; [done|].
    simpl. rewrite Hc. destruct cur; by rewrite IHw.
  - destruct (is_space c); [|done]. destruct cur; by rewrite IH.
Qed.

Lemma split_lstrip s : split (lstrip s) = split s.
Proof.
  unfold split. induction s as [|c s IH]; [done|].
  simpl. by destruct (is_space c) eqn:Hc; [|simpl; rewrite Hc].
Qed.

Lemma lstrip_suffix s :
  ∃ w, Forall (λ c, is_space c = true) w ∧ s = w ++ lstrip s.
Proof.
  induction s as [|c s (w & Hw & IH)]; [by exists []|]. simpl.
  destruct (is_space c) eqn:Hc; [|by exists []].
  exists (c :: w). split; [by constructor|]. simpl. by f_equal.
Qed.

Lemma split_strip s : split (strip s) = split s.
Proof.
  unfold strip. rewrite <- (split_lstrip s).
  destruct (lstrip_suffix (reverse (lstrip s))) as (w & Hw & Heq).
  apply (f_equal reverse) in Heq.
  rewrite reverse_involutive, reverse_app in Heq.
  rewrite Heq at 2. unfold split. rewrite split_ws_app_space; [done|].
  by apply Forall_reverse.
Qed.

(** ** Further properties of [gc_content] and [process_sequences] *)

Section ProcessSequencesFacts.
Context {float : Type}.
Variable int_div : nat → nat → float.
Variable float_mul : float → nat → float.
Variable float_round : float → nat → float.
Variable float_str : float → list ascii.
Variable read_error : string → exn.
Variable write_error : string → option exn.

Lemma gc_count_length (l : list ascii) :
  sum_list ((λ _, 1) <$> l) = length l.
Proof. induction l as [|c l IH]; [done|]. simpl. f_equal. exact IH. Qed.

Lemma gc_content_returns s :
  s ≠ [] → ∃ v, gc_content int_div float_mul float_round s = inr v.
Proof.
  intros Hs. unfold gc_content, truediv.
  rewrite decide_False by (by destruct s). simpl. eauto.
Qed.

(** X5: [gc_content] depends on the symbols of the sequence but not on
    their order. *)
Theorem gc_content_permutation s s' :
  s ≡ₚ s' →
  gc_content int_div float_mul float_round s
  = gc_content int_div float_mul float_round s'.
Proof.
  intros Hperm. unfold gc_content.
  rewrite !gc_count_length. by rewrite Hperm.
Qed.

(** The five lines reported for two sequences, given their GC contents and
    their longest common substring. *)
Lemma report_returns seq1 seq2 :
  seq1 ≠ [] → seq2 ≠ [] →
  ∃ g1 g2 common,
    gc_content int_div float_mul float_round seq1 = inr g1 ∧
    gc_content int_div float_mul float_round seq2 = inr g2 ∧
    longest_common_substring seq1 seq2 = inr common ∧
    report int_div float_mul float_round float_str seq1 seq2
    = inr [ text "seq1 length: " ++ text (pretty (length seq1));
            text "seq2 length: " ++ text (pretty (length seq2));
            text "seq1 GC content: " ++ float_str g1 ++ text "%";
            text "seq2 GC content: " ++ float_str g2 ++ text "%";
            text "Longest common substring: " ++ common ].
Proof.
  intros (g1 & Hg1)%gc_content_returns (g2 & Hg2)%gc_content_returns.
  destruct (lcs_returns seq1 seq2) as (e & k & Hrun & _).
  exists g1, g2, (segment seq1 e k). unfold report.
  rewrite Hg1, Hg2, Hrun. done.
Qed.


(** X7: when the input file has two lines and one of them has no second
    token, the call raises [IndexError] and writes nothing. *)
Theorem process_sequences_missing_token
    (input_file output_file : string) (fs : gmap string (list ascii))
    content line1 line2 :
  fs !! input_file = Some content →
  readlines content = [line1; line2] →
  length (split line1) < 2 ∨ length (split line2) < 2 →
  process_sequences int_div float_mul float_round float_str
    read_error write_error input_file output_file fs
  = (inl IndexError, fs).
Proof.
  intros Hfile Hlines Hshort.
  unfold process_sequences. rewrite Hfile, Hlines.
  rewrite decide_False by (simpl; lia). simpl.
  rewrite !split_strip. unfold getitem at 1.
  destruct (split line1 !! 1) as [seq1|] eqn:H1; simpl; [|done].
  unfold getitem at 1.
  destruct (split line2 !! 1) as [seq2|] eqn:H2; simpl; [|done].
  apply lookup_lt_Some in H1, H2. lia.
Qed.

End ProcessSequencesFacts.

(** ** Lines and tokens of well-formed text *)

Lemma universal_newlines_id s :
  Forall (λ c, c ≠ CR) s → universal_newlines s = s.
Proof.
  induction 1 as [|c s Hc _ IH]; [done|].
  change (universal_newlines (c :: s))
    with (if decide (c = CR) then
            LF :: match s with
                  | [] => []
                  | c' :: s'' =>
                      if decide (c' = LF) then universal_newlines s''
                      else universal_newlines s
                  end
          else c :: universal_newlines s).
  destruct (decide (c = CR)); [done|]. by rewrite IH.
Qed.

Lemma split_lines_line t : ∀ cur rest,
  Forall (λ c, c ≠ LF) t →
  split_lines cur (t ++ LF :: rest) = (cur ++ t ++ [LF]) :: split_lines [] rest.
Proof.
  induction t as [|c t IH]; intros cur rest Ht; simpl.
  - done.
  - apply Forall_cons in Ht as [Hc Ht]. rewrite decide_False by done.
    rewrite IH by done. by rewrite <- app_assoc.
Qed.

(** Reading back lines that were each written with a line feed. *)
Lemma readlines_lines ls :
  Forall no_line_break ls →
  readlines (concat ((λ l, l ++ [LF]) <$> ls)) = (λ l, l ++ [LF]) <$> ls.
Proof.
  intros Hls. unfold readlines. rewrite universal_newlines_id.
  2:{ apply Forall_concat, Forall_fmap.
      eapply Forall_impl; [exact Hls|]. intros l Hl. simpl.
      apply Forall_app. split; [|by apply Forall_singleton].
      eapply Forall_impl; [exact Hl|]. by intros c [_ ?]. }
  induction Hls as [|l ls Hl _ IH]; [done|].
  rewrite fmap_cons. cbn [concat]. rewrite <- app_assoc.
  cbn [app]. rewrite split_lines_line.
  - cbn [app]. by rewrite IH.
  - eapply Forall_impl; [exact Hl|]. by intros c [? _].
Qed.

Lemma join_lines_concat ls :
  ls ≠ [] → join_lines ls ++ [LF] = concat ((λ l, l ++ [LF]) <$> ls).
Proof.
  induction ls as [|l ls IH]; [done|]. intros _.
  destruct ls as [|l' ls]; [simpl; by rewrite app_nil_r|].
  change (join_lines (l :: l' :: ls)) with (l ++ LF :: join_lines (l' :: ls)).
  rewrite <- app_assoc. simpl. rewrite <- app_assoc. simpl.
  f_equal. f_equal. by apply IH.
Qed.






(** The decimal digits of a number hold no line break. *)
Lemma pretty_N_no_line_break (x : N) : no_line_break (text (pretty x)).
Proof.
  assert (Hchar : ∀ d, pretty_N_char d ≠ LF ∧ pretty_N_char d ≠ CR).
  { intros d. unfold pretty_N_char. repeat case_match; split; discriminate. }
  assert (Hgo : ∀ y s, no_line_break (text s) →
                       no_line_break (text (pretty_N_go y s))).
  { intros y. induction (N.lt_wf_0 y) as [y _ IH]. intros s Hs.
    destruct (decide (y = 0)%N) as [->|Hy]; [by rewrite pretty_N_go_0|].
    rewrite pretty_N_go_step by lia. apply IH.
    - apply N.div_lt; lia.
    - simpl. constructor; [apply Hchar|done]. }
  unfold pretty, pretty_N.
  destruct (decide (x = 0)%N).
  - repeat constructor; discriminate.
  - apply Hgo. constructor.
Qed.

Lemma pretty_nat_no_line_break (n : nat) : no_line_break (text (pretty n)).
Proof. apply pretty_N_no_line_break. Qed.

Lemma pretty_Z_no_line_break (z : Z) : no_line_break (text (pretty z)).
Proof.
  destruct z as [|q|q]; unfold pretty, pretty_Z.
  - repeat constructor; discriminate.
  - apply pretty_N_no_line_break.
  - simpl. constructor; [split; discriminate|].
    apply pretty_N_no_line_break.
Qed.

Lemma substring_Forall (P : ascii → Prop) t s :
  substring_of t s → Forall P s → Forall P t.
Proof. intros (a & b & ->). rewrite !Forall_app. tauto. Qed.

Section ProcessSequencesFormat.
Context {float : Type}.
Variable int_div : nat → nat → float.
Variable float_mul : float → nat → float.
Variable float_round : float → nat → float.
Variable float_str : float → list ascii.
Variable read_error : string → exn.
Variable write_error : string → option exn.


(** X10: when [str] of a float holds no line break, a call that returns
    normally leaves at the output path a text of five lines: reading it back
    with [readlines] yields five lines, each ended by a line feed. *)
Theorem process_sequences_five_lines
    (input_file output_file : string) (fs fs' : gmap string (list ascii)) :
  (∀ x, no_line_break (float_str x)) →
  process_sequences int_div float_mul float_round float_str
    read_error write_error input_file output_file fs
  = (inr (), fs') →
  ∃ lines,
    length lines = 5 ∧
    fs' !! output_file = Some (join_lines lines ++ [LF]) ∧
    readlines (join_lines lines ++ [LF]) = (λ l, l ++ [LF]) <$> lines.
Proof.
  intros Hstr. unfold process_sequences.
  destruct (fs !! input_file) as [content|]; [|discriminate].
  destruct (decide (length (readlines content) ≠ 2)); [discriminate|].
  destruct (getitem (readlines content) 0) as [|line1]; [discriminate|].
  cbn [bind]. unfold getitem at 1.
  destruct (split (strip line1) !! 1) as [seq1|] eqn:H1; [|discriminate].
  cbn [bind ret].
  destruct (getitem (readlines content) 1) as [|line2]; [discriminate|].
  cbn [bind]. unfold getitem at 1.
  destruct (split (strip line2) !! 1) as [seq2|] eqn:H2; [|discriminate].
  cbn [bind ret].
  destruct (split_tokens (strip line1) seq1) as [Hne1 Hsp1];
    [by eapply list_elem_of_lookup_2|].
  destruct (split_tokens (strip line2) seq2) as [Hne2 _];
    [by eapply list_elem_of_lookup_2|].
  destruct (report_returns int_div float_mul float_round float_str
              seq1 seq2 Hne1 Hne2)
    as (g1 & g2 & common & _ & _ & Hcommon & ->).
  destruct (write_error output_file); [discriminate|].
  intros [= <-].
  exists [ text "seq1 length: " ++ text (pretty (length seq1));
           text "seq2 length: " ++ text (pretty (length seq2));
           text "seq1 GC content: " ++ float_str g1 ++ text "%";
           text "seq2 GC content: " ++ float_str g2 ++ text "%";
           text "Longest common substring: " ++ common ].
  split; [done|]. split; [apply lookup_insert_eq|].
  rewrite join_lines_concat by done. apply readlines_lines.
    assert (Hcommon' : no_line_break common).
    { destruct (lcs_returns seq1 seq2) as (e & k & Hrun & _).
      rewrite Hrun in Hcommon. injection Hcommon as <-.
      apply no_space_no_line_break.
      eapply substring_Forall; [apply segment_substring|done]. }
    assert (Hlit : ∀ s, bool_decide (no_line_break (text s)) = true →
                        no_line_break (text s)).
    { intros s. apply bool_decide_eq_true_1. }
    unfold no_line_break in *.
    repeat constructor; rewrite ?Forall_app; repeat split;
      auto using pretty_nat_no_line_break;
      try (apply Hlit; reflexivity).
  - exact (pretty_nat_no_line_break (length seq1)).
  - exact (pretty_nat_no_line_break (length seq2)).
Qed.
End ProcessSequencesFormat.

(** ** The further properties at concrete inputs *)

Lemma exact_str_no_line_break x : no_line_break (Exact.str x).
Proof.
  unfold Exact.str, no_line_break. rewrite !Forall_app.
  split; [apply pretty_Z_no_line_break|].
  split; [repeat constructor; discriminate|apply pretty_Z_no_line_break].
Qed.

Lemma two_lines_run :
  Exact.run_process_sequences "in.txt" "out.txt"
    {[ "in.txt"%string := two_lines ]}
  = (inr (), <["out.txt"%string := two_lines_report]>
               {[ "in.txt"%string := two_lines ]}).
Proof.
  unfold Exact.run_process_sequences, process_sequences.
  rewrite lookup_singleton_eq. reflexivity.
Qed.

(** X5 at ["GAC"] and its reverse. *)
Lemma gc_content_permutation_witness :
  text "GAC" ≡ₚ text "CAG" ∧
  Exact.run_gc_content (text "GAC") = Exact.run_gc_content (text "CAG").
Proof.
  assert (Hperm : text "GAC" ≡ₚ text "CAG")
    by apply (reverse_Permutation (text "CAG")).
  split; [exact Hperm|].
  exact (gc_content_permutation Exact.div Exact.mul Exact.round _ _ Hperm).
Defined.


(** X7 at a file system whose input file is [no_label]. *)
Lemma process_sequences_missing_token_witness :
  ({[ "in.txt"%string := no_label ]} : gmap string (list ascii))
    !! "in.txt"%string = Some no_label ∧
  readlines no_label
  = [text "s1 ACGTACGT" ++ [LF]; text "TTACGTGG" ++ [LF]] ∧
  (length (split (text "s1 ACGTACGT" ++ [LF])) < 2 ∨
   length (split (text "TTACGTGG" ++ [LF])) < 2) ∧
  Exact.run_process_sequences "in.txt" "out.txt"
    {[ "in.txt"%string := no_label ]}
  = (inl IndexError, {[ "in.txt"%string := no_label ]}).
Proof.
  assert (Hfile : ({[ "in.txt"%string := no_label ]}
                     : gmap string (list ascii))
                    !! "in.txt"%string = Some no_label)
    by apply lookup_singleton_eq.
  assert (Hlines : readlines no_label
                   = [text "s1 ACGTACGT" ++ [LF]; text "TTACGTGG" ++ [LF]])
    by reflexivity.
  assert (Hshort : length (split (text "s1 ACGTACGT" ++ [LF])) < 2 ∨
                   length (split (text "TTACGTGG" ++ [LF])) < 2)
    by (right; vm_compute; lia).
  repeat (split; [assumption|]).
  exact (process_sequences_missing_token
           Exact.div Exact.mul Exact.round Exact.str
           Exact.read_error Exact.write_error
           "in.txt" "out.txt" _ _ _ _ Hfile Hlines Hshort).
Defined.



(** X10 at a file system whose input file is [two_lines]. *)
Lemma process_sequences_five_lines_witness :
  (∀ x, no_line_break (Exact.str x)) ∧
  Exact.run_process_sequences "in.txt" "out.txt"
    {[ "in.txt"%string := two_lines ]}
  = (inr (), <["out.txt"%string := two_lines_report]>
               {[ "in.txt"%string := two_lines ]}) ∧
  ∃ lines,
    length lines = 5 ∧
    (<["out.txt"%string := two_lines_report]>
       ({[ "in.txt"%string := two_lines ]} : gmap string (list ascii)))
      !! "out.txt"%string = Some (join_lines lines ++ [LF]) ∧
    readlines (join_lines lines ++ [LF]) = (λ l, l ++ [LF]) <$> lines.
Proof.
  split; [exact exact_str_no_line_break|].
  split; [exact two_lines_run|].
  exact (process_sequences_five_lines
           Exact.div Exact.mul Exact.round Exact.str
           Exact.read_error Exact.write_error
           "in.txt" "out.txt" _ _ exact_str_no_line_break two_lines_run).
Defined.

(** ** [gc_content] in double arithmetic *)

(** On every pair [a <= b <= 64], and on the pairs of [tie_sequence] and of
    its mirror image, [Double.int_div] and [Double.float_mul] compute what
    the Standard Library's specification of binary64 computes. *)
Lemma double_agrees_with_spec :
  forallb Double.agrees_with_spec
    ((23, 80) :: (57, 80) ::
     (b ← seq 1 64; (λ a, (a, b)) <$> seq 0 (S b))) = true.
Proof. vm_compute. reflexivity. Qed.

Lemma nearest_integer_le (y : Q) (N : Z) :
  (y <= inject_Z N)%Q → (Double.nearest_integer y ≤ N)%Z.
Proof.
  destruct y as [n d]. unfold Qle, Double.nearest_integer. simpl.
  intros Hy.
  assert (((2 * n + Z.pos d) / (2 * Z.pos d) < N + 1)%Z) as Hup.
  { apply Z.div_lt_upper_bound; nia. }
  destruct (_ && _); lia.
Qed.

Lemma nearest_integer_ge (y : Q) (N : Z) :
  (inject_Z N <= y)%Q → (N ≤ Double.nearest_integer y)%Z.
Proof.
  destruct y as [n d]. unfold Qle, Double.nearest_integer. simpl.
  intros Hy.
  assert ((N ≤ (2 * n + Z.pos d) / (2 * Z.pos d))%Z) as Hup.
  { apply Z.div_le_lower_bound; nia. }
  destruct (((2 * n + Z.pos d) mod (2 * Z.pos d) =? 0)%Z) eqn:Htie;
    simpl; [|done].
  destruct (Z.odd _); [|done].
  apply Z.eqb_eq in Htie.
  pose proof (Z.div_mod (2 * n + Z.pos d) (2 * Z.pos d)) as Hdm.
  rewrite Htie in Hdm. nia.
Qed.

Lemma ilog2_le (x : Q) (B : Z) :
  (0 < x)%Q → (x <= inject_Z B)%Q → (Double.ilog2 x ≤ Z.log2 B)%Z.
Proof.
  destruct x as [n d]. unfold Qlt, Qle, Double.ilog2. simpl.
  intros Hpos Hle.
  destruct (Z.leb_spec (Z.pos d) n) as [Hdn|Hdn].
  - apply Z.log2_le_mono. apply Z.div_le_upper_bound; nia.
  - pose proof (Z.log2_up_nonneg ((Z.pos d + n - 1) / n)).
    pose proof (Z.log2_nonneg B). lia.
Qed.

Lemma pow2_neg (e : Z) :
  (e ≤ 0)%Z →
  ∃ p : positive,
    (2 ^ (- e) == inject_Z (Z.pos p))%Q ∧ (2 ^ e == 1 # p)%Q.
Proof.
  intros He.
  assert (0 < 2 ^ (- e))%Z as Hpos by (apply Z.pow_pos_nonneg; lia).
  destruct (2 ^ (- e))%Z as [|p|p] eqn:Hp; try lia.
  exists p. assert ((2 ^ (- e) == inject_Z (Z.pos p))%Q) as H1.
  { rewrite <- Hp. rewrite Zpower_Qpower by lia. reflexivity. }
  split; [done|].
  replace e with (- - e)%Z by lia. rewrite Qpower_opp, H1. reflexivity.
Qed.

(** A value that is at most an integer below [2^53] rounds to a double
    that is at most that integer. *)
Lemma nearest_le (x : Q) (B : Z) :
  (0 <= x)%Q → (x <= inject_Z B)%Q → (B < 2 ^ 53)%Z →
  (Double.nearest x <= inject_Z B)%Q.
Proof.
  intros H0 HB Hsmall. unfold Double.nearest.
  pose proof (Qred_correct x) as Hred.
  destruct (Qeq_bool (Qred x) 0) eqn:Hz.
  { by apply Qle_trans with x. }
  apply Qeq_bool_neq in Hz.
  set (x' := Qred x) in *.
  assert (0 < x')%Q as Hpos.
  { apply Qle_lteq in H0 as [H0|H0]; [by rewrite Hred|].
    destruct Hz. by rewrite Hred, <- H0. }
  assert (Qabs x' = x') as ->.
  { destruct x' as [n d]. unfold Qabs. f_equal.
    apply Z.abs_eq. unfold Qlt in Hpos. simpl in Hpos. lia. }
  set (e := Z.max (Double.ilog2 x' - 52) (-1074)).
  assert (e ≤ 0)%Z as He.
  { assert (x' <= inject_Z B)%Q as HB' by (by rewrite Hred).
    pose proof (ilog2_le x' B Hpos HB') as Hlog.
    assert (Z.log2 B < 53)%Z.
    { destruct (decide (0 < B)%Z) as [HBpos|HBneg].
      - apply Z.log2_lt_pow2; lia.
      - rewrite Z.log2_nonpos by lia. lia. }
    lia. }
  destruct (pow2_neg e He) as (p & Hp1 & Hp2).
  rewrite Qred_correct, Hp2.
  assert (Double.nearest_integer (x' * 2 ^ (- e)) ≤ B * Z.pos p)%Z as Hm.
  { apply nearest_integer_le. rewrite Hp1, Hred, inject_Z_mult.
    apply Qmult_le_compat_r; [done|]. done. }
  unfold Qle. simpl. nia.
Qed.

Lemma nearest_nonneg (x : Q) : (0 <= x)%Q → (0 <= Double.nearest x)%Q.
Proof.
  intros H0. unfold Double.nearest.
  destruct (Qeq_bool (Qred x) 0); [done|].
  rewrite Qred_correct.
  apply Qmult_le_0_compat; [|apply Qpower_0_le; done].
  change 0%Q with (inject_Z 0). rewrite <- Zle_Qle.
  apply nearest_integer_ge. apply Qmult_le_0_compat.
  - by rewrite Qred_correct.
  - apply Qpower_0_le. done.
Qed.

(** Equal fractions round to the same double. *)
Lemma nearest_proper (x y : Q) :
  (x == y)%Q → Double.nearest x = Double.nearest y.
Proof.
  intros Hxy. unfold Double.nearest. by rewrite (Qred_complete x y Hxy).
Qed.

(** The quotient of a count by a length that bounds it lies in [0, 1]. *)
Lemma int_div_unit (a b : nat) :
  a ≤ b → 0 < b →
  (0 <= Double.int_div a b)%Q ∧ (Double.int_div a b <= 1)%Q.
Proof.
  intros Hab Hb. unfold Double.int_div.
  assert (Z.pos (Pos.of_nat b) = Z.of_nat b) as Hpos.
  { rewrite <- positive_nat_Z, Nat2Pos.id by lia. done. }
  assert (0 <= Z.of_nat a # Pos.of_nat b)%Q as H0.
  { unfold Qle. simpl. lia. }
  split; [by apply nearest_nonneg|].
  apply (nearest_le _ 1); [done| |done].
  unfold Qle. simpl. lia.
Qed.

(** A double in [0, 1] times 100 lies in [0, 100]. *)
Lemma float_mul_percent (q : Q) :
  (0 <= q)%Q → (q <= 1)%Q →
  (0 <= Double.float_mul q 100)%Q ∧ (Double.float_mul q 100 <= 100)%Q.
Proof.
  intros H0 H1. unfold Double.float_mul.
  assert (Double.nearest (inject_Z (Z.of_nat 100)) = 100%Q) as ->
    by (by vm_compute).
  assert (0 <= q * 100)%Q as Hlo.
  { apply Qmult_le_0_compat; done. }
  split; [by apply nearest_nonneg|].
  apply (nearest_le _ 100); [done| |done].
  change (inject_Z 100) with (1 * 100)%Q.
  apply Qmult_le_compat_r; done.
Qed.

(** A double in [0, 100], rounded to one decimal, lies in [0, 100]. *)
Lemma float_round_percent (y : Q) :
  (0 <= y)%Q → (y <= 100)%Q →
  (0 <= Double.float_round y 1)%Q ∧ (Double.float_round y 1 <= 100)%Q.
Proof.
  intros H0 H100. unfold Double.float_round.
  change (10 ^ Z.of_nat 1)%Z with 10%Z. change (Z.to_pos 10) with 10%positive.
  set (t := Double.nearest_integer (y * inject_Z 10)).
  assert (0 ≤ t)%Z as Ht0.
  { apply nearest_integer_ge. apply Qmult_le_0_compat; done. }
  assert (t ≤ 1000)%Z as Ht1.
  { apply nearest_integer_le. change (inject_Z 1000) with (100 * 10)%Q.
    apply Qmult_le_compat_r; done. }
  assert (0 <= t # 10)%Q as Hlo by (unfold Qle; simpl; lia).
  split; [by apply nearest_nonneg|].
  apply (nearest_le _ 100); [done| |done].
  unfold Qle. simpl. lia.
Qed.

Lemma gc_count_le sequence : gc_count sequence ≤ length sequence.
Proof. apply length_filter. Qed.

Lemma gc_count_all sequence :
  Forall (λ base, base ∈ text "GC") sequence →
  gc_count sequence = length sequence.
Proof.
  unfold gc_count. induction 1 as [|base l Hbase _ IH]; [done|].
  rewrite filter_cons_True by done. cbn [length]. f_equal. exact IH.
Qed.

Lemma gc_count_none sequence :
  Forall (λ base, base ∉ text "GC") sequence → gc_count sequence = 0.
Proof.
  unfold gc_count. induction 1 as [|base l Hbase _ IH]; [done|].
  by rewrite filter_cons_False.
Qed.

(** C5, as the code has it: on a non-empty sequence [gc_content] returns
    [round((count / length) * 100, 1)] evaluated in doubles in that order,
    the quotient being rounded before it is multiplied; the result lies in
    [0, 100], is 100 when every symbol is G or C, and 0 when none is. *)
Theorem gc_content_double (sequence : list ascii) :
  sequence ≠ [] →
  ∃ v,
    gc_content Double.int_div Double.float_mul Double.float_round sequence
    = inr v ∧
    v = Double.float_round
          (Double.float_mul
             (Double.int_div (gc_count sequence) (length sequence)) 100) 1 ∧
    (0 <= v)%Q ∧ (v <= 100)%Q ∧
    (Forall (λ base, base ∈ text "GC") sequence → v = 100%Q) ∧
    (Forall (λ base, base ∉ text "GC") sequence → v = 0%Q).
Proof.
  intros Hne. eexists. split; [|split; [reflexivity|]].
  { unfold gc_content, truediv. rewrite decide_False by (by destruct sequence).
    simpl. by rewrite gc_count_length. }
  assert (0 < length sequence) as Hlen by (destruct sequence; simpl; [done|lia]).
  destruct (int_div_unit _ _ (gc_count_le sequence) Hlen) as [Hq0 Hq1].
  destruct (float_mul_percent _ Hq0 Hq1) as [Hy0 Hy1].
  destruct (float_round_percent _ Hy0 Hy1) as [Hv0 Hv1].
  split; [done|]. split; [done|]. split.
  - intros Hall. rewrite (gc_count_all _ Hall).
    assert (Double.int_div (length sequence) (length sequence)
            = Double.nearest 1) as ->.
    { apply nearest_proper. unfold Qeq. cbn [Qnum Qden].
      rewrite <- (positive_nat_Z (Pos.of_nat _)), Nat2Pos.id by lia. lia. }
    by vm_compute.
  - intros Hnone. rewrite (gc_count_none _ Hnone).
    assert (Double.int_div 0 (length sequence) = Double.nearest 0) as ->.
    { apply nearest_proper. unfold Qeq. cbn [Qnum Qden]. lia. }
    by vm_compute.
Qed.

(** C5, as the specification has it, fails: for [tie_sequence] the code
    returns the double 28.7, and [round(100 * count / length, 1)] is the
    double 28.8. *)
Lemma gc_content_formula_differs :
  gc_content Double.int_div Double.float_mul Double.float_round tie_sequence
  = inr (Double.nearest (287 # 10)) ∧
  Double.float_round
    (Double.int_div (100 * gc_count tie_sequence) (length tie_sequence)) 1
  = Double.nearest (288 # 10) ∧
  gc_content Double.int_div Double.float_mul Double.float_round tie_sequence
  ≠ inr (Double.float_round
           (Double.int_div (100 * gc_count tie_sequence)
              (length tie_sequence)) 1).
Proof. vm_compute. repeat split; discriminate. Qed.

(** C5 at ["GGCC"], where every symbol is G or C. *)
Lemma gc_content_double_witness :
  text "GGCC" ≠ [] ∧
  ∃ v,
    gc_content Double.int_div Double.float_mul Double.float_round
      (text "GGCC") = inr v ∧
    v = Double.float_round
          (Double.float_mul
             (Double.int_div (gc_count (text "GGCC")) (length (text "GGCC")))
             100) 1 ∧
    (0 <= v)%Q ∧ (v <= 100)%Q ∧
    (Forall (λ base, base ∈ text "GC") (text "GGCC") → v = 100%Q) ∧
    (Forall (λ base, base ∉ text "GC") (text "GGCC") → v = 0%Q).
Proof.
  assert (Hne : text "GGCC" ≠ []) by discriminate.
  split; [exact Hne|].
  exact (gc_content_double (text "GGCC") Hne).
Defined.
